(** * Game CRUD service: the Express handlers of [app.js] over the Mongoose
    model of [models/gameModel.js].

    The handlers are translated one by one.  Each of them is a [try]/[catch]
    around one or two calls of the [Game] model; the calls are modelled as
    functions from the collection (the list of stored documents, in natural
    order) to a result that is either a value or the thrown error, and the
    handler turns that result into the HTTP status and JSON body it sends.
    The line each [catch] writes to the console is left out, and so is a
    connection to the database that fails: the server only listens once the
    connection is made. *)

From Stdlib Require Import String Ascii List ZArith NArith Bool Lia.
Import ListNotations.
Open Scope string_scope.

(** ** Hexadecimal text, as used by ObjectId *)

Module Hex.

Definition isHexDigit (c : ascii) : bool :=
  let n := N_of_ascii c in
  (((48 <=? n) && (n <=? 57)) || ((97 <=? n) && (n <=? 102))
   || ((65 <=? n) && (n <=? 70)))%N.

Definition toLowerCase_char (c : ascii) : ascii :=
  let n := N_of_ascii c in
  if ((65 <=? n) && (n <=? 90))%N then ascii_of_N (n + 32) else c.

Fixpoint toLowerCase (s : string) : string :=
  match s with
  | EmptyString => EmptyString
  | String c r => String (toLowerCase_char c) (toLowerCase r)
  end.

Fixpoint all_chars (f : ascii -> bool) (s : string) : bool :=
  match s with
  | EmptyString => true
  | String c r => f c && all_chars f r
  end.

(** One digit, lower case: 0..9 then a..f. *)
Definition digit (d : N) : ascii :=
  if (d <? 10)%N then ascii_of_N (48 + d) else ascii_of_N (87 + d).

(** [width] digits of [v], most significant first (higher digits dropped). *)
Fixpoint render (width : nat) (v : N) : string :=
  match width with
  | O => EmptyString
  | S k => render k (v / 16) ++ String (digit (v mod 16)) EmptyString
  end.

End Hex.

(** ** ObjectId

    An ObjectId is twelve bytes; it is identified here with its canonical
    rendering, [toHexString]: 24 lower-case hexadecimal digits. *)

Inductive ObjectId := OID (hex : string).

Definition toHexString (o : ObjectId) : string := let (h) := o in h.

Definition ObjectId_eqb (a b : ObjectId) : bool :=
  String.eqb (toHexString a) (toHexString b).

(** [ObjectId.isValid] on a string: 24 hexadecimal characters. *)
Definition isValid (s : string) : bool :=
  (String.length s =? 24)%nat && Hex.all_chars Hex.isHexDigit s.

(** The cast Mongoose applies to a string where the schema wants an ObjectId
    (the [_id] path, so the id of a route as well): the string must be 24
    hexadecimal characters, as the driver's [ObjectId] constructor asks of a
    string since bson 5; the result is written in lower case. *)
Definition castObjectId (s : string) : option ObjectId :=
  if isValid s then Some (OID (Hex.toLowerCase s)) else None.

(** [new ObjectId()]: the driver's twelve fresh bytes (time stamp, process
    value, counter), given here as the number [raw] they spell. *)
Definition ObjectId_generate (raw : N) : ObjectId := OID (Hex.render 24 raw).

(** ** The schema of [models/gameModel.js] *)

Inductive path := Name | Url | Author | DatePublished.

Definition path_name (f : path) : string :=
  match f with
  | Name => "name"
  | Url => "url"
  | Author => "author"
  | DatePublished => "datePublished"
  end.

(** The message of each [required: [true, message]] validator. *)
Definition required_message (f : path) : string :=
  match f with
  | Name => "enter the game name"
  | Url => "enter the game url"
  | Author => "enter the game author"
  | DatePublished => "enter the date published"
  end.

Definition gameSchema : list path := [Name; Url; Author; DatePublished].

(** ** Request bodies

    A payload carries the four fields of the schema, each present (a string)
    or not.  A request body is a payload, possibly with an [_id] property
    next to it (the [Game] schema of the API description lists [_id] among
    the properties of a body).  These are the bodies this development speaks
    of.  A body can carry more that Mongoose honours and that is not
    represented here: [createdAt], [updatedAt] and [__v], which are paths of
    the schema too, a [null] or a value that is not a string, and update
    operators in the body of an update. *)

Record payload := {
  p_name : option string;
  p_url : option string;
  p_author : option string;
  p_datePublished : option string
}.

Record body := {
  body_id : option string;
  body_fields : payload
}.

Definition body_of (p : payload) : body :=
  {| body_id := None; body_fields := p |}.

Definition payload_get (p : payload) (f : path) : option string :=
  match f with
  | Name => p_name p
  | Url => p_url p
  | Author => p_author p
  | DatePublished => p_datePublished p
  end.

(** ** Stored documents *)

Record game := {
  _id : ObjectId;
  name : string;
  url : string;
  author : string;
  datePublished : string;
  createdAt : Z;
  updatedAt : Z;
  __v : Z
}.

Definition game_get (g : game) (f : path) : string :=
  match f with
  | Name => name g
  | Url => url g
  | Author => author g
  | DatePublished => datePublished g
  end.

(** The collection: the stored documents in natural (insertion) order. *)
Definition store := list game.

(** What the environment supplies to one request: the name of the database
    of the connection string, the bytes the driver would use for a new
    ObjectId, and the clock. *)
Record env := {
  db : string;
  oid_raw : N;
  now : Z
}.

(** ** Errors and results *)

Inductive error :=
| ValidationError (errors : list (string * string))
| CastError (value : string) (at_path : string)
| MongoServerError (code : Z) (errmsg : string).

Inductive result (A : Type) :=
| Ok (a : A)
| Throw (e : error).

Arguments Ok {A} a.
Arguments Throw {A} e.

Definition error_name (e : error) : string :=
  match e with
  | ValidationError _ => "ValidationError"
  | CastError _ _ => "CastError"
  | MongoServerError _ _ => "MongoServerError"
  end.

(** A string between double quotes, which is how a value without quote,
    backslash or control character is shown in a message. *)
Definition quoted (s : string) : string :=
  String (ascii_of_nat 34) s ++ String (ascii_of_nat 34) EmptyString.

Fixpoint join (sep : string) (l : list string) : string :=
  match l with
  | [] => EmptyString
  | [x] => x
  | x :: r => x ++ sep ++ join sep r
  end.

Definition castMessage (value at_path : string) : string :=
  "Cast to ObjectId failed for value " ++ quoted value
  ++ " (type string) at path " ++ quoted at_path.

(** [err.message], the text the handlers send back. *)
Definition message (e : error) : string :=
  match e with
  | ValidationError errors =>
      "Game validation failed: "
      ++ join ", " (map (fun kv => fst kv ++ ": " ++ snd kv) errors)
  | CastError value at_path =>
      castMessage value at_path ++ " for model " ++ quoted "Game"
  | MongoServerError _ errmsg => errmsg
  end.

(** ** The collection's primitives: first match by [_id] *)

Fixpoint findOne (o : ObjectId) (st : store) : option game :=
  match st with
  | [] => None
  | g :: r => if ObjectId_eqb (_id g) o then Some g else findOne o r
  end.

Fixpoint updateOne (o : ObjectId) (f : game -> game) (st : store) : store :=
  match st with
  | [] => []
  | g :: r => if ObjectId_eqb (_id g) o then f g :: r else g :: updateOne o f r
  end.

Fixpoint deleteOne (o : ObjectId) (st : store) : store :=
  match st with
  | [] => []
  | g :: r => if ObjectId_eqb (_id g) o then r else g :: deleteOne o r
  end.

(** ** The model [Game] *)

(** A document built by [new Game(req.body)] and not saved yet: its [_id]
    (the body's when it casts, a generated one otherwise), the fields taken
    from the body, and the cast errors recorded while building it. *)
Record document := {
  doc_id : ObjectId;
  doc_fields : payload;
  doc_errors : list (string * string)
}.

Definition Game_new (e : env) (b : body) : document :=
  match body_id b with
  | None =>
      {| doc_id := ObjectId_generate (oid_raw e);
         doc_fields := body_fields b;
         doc_errors := [] |}
  | Some s =>
      match castObjectId s with
      | Some o =>
          {| doc_id := o; doc_fields := body_fields b; doc_errors := [] |}
      | None =>
          {| doc_id := ObjectId_generate (oid_raw e);
             doc_fields := body_fields b;
             doc_errors := [("_id", castMessage s "_id")] |}
      end
  end.

(** The [required] validator of a String path: a string of length > 0. *)
Definition checkRequired (v : option string) : bool :=
  match v with
  | Some s => (0 <? String.length s)%nat
  | None => false
  end.

Definition validatePath (p : payload) (f : path) : list (string * string) :=
  if checkRequired (payload_get p f) then []
  else [(path_name f, required_message f)].

(** The entries of a validation: path and message.  The order in which
    Mongoose lists them in its message is not modelled; the properties below
    speak of which entries there are. *)
Definition validate (d : document) : list (string * string) :=
  (doc_errors d ++ flat_map (validatePath (doc_fields d)) gameSchema)%list.

Definition text (v : option string) : string :=
  match v with
  | Some s => s
  | None => EmptyString
  end.

Definition duplicateKey (e : env) (o : ObjectId) : error :=
  MongoServerError 11000
    ("E11000 duplicate key error collection: " ++ db e
     ++ ".games index: _id_ dup key: { _id: ObjectId('" ++ toHexString o
     ++ "') }").

(** The document as it is stored and sent back: the fields, and the time
    stamps of [timestamps: true], both set from one reading of the clock (the
    body carrying no [createdAt] of its own). *)
Definition stamped (e : env) (d : document) : game :=
  {| _id := doc_id d;
     name := text (p_name (doc_fields d));
     url := text (p_url (doc_fields d));
     author := text (p_author (doc_fields d));
     datePublished := text (p_datePublished (doc_fields d));
     createdAt := now e;
     updatedAt := now e;
     __v := 0 |}.

(** [game.save()] of a new document: validation, then the time stamps, then
    the insertion, which the unique index on [_id] may refuse. *)
Definition save (e : env) (d : document) (st : store) : result (game * store) :=
  match validate d with
  | [] =>
      let g := stamped e d in
      match findOne (doc_id d) st with
      | Some _ => Throw (duplicateKey e (doc_id d))
      | None => Ok (g, (st ++ [g])%list)
      end
  | errors => Throw (ValidationError errors)
  end.

(** [Game.find({})] *)
Definition Game_find (st : store) : result (list game) := Ok st.

(** [Game.findById(id)] *)
Definition Game_findById (id : string) (st : store) : result (option game) :=
  match castObjectId id with
  | None => Throw (CastError id "_id")
  | Some o => Ok (findOne o st)
  end.

(** The update [{ $set: body, updatedAt: now }] applied to one document. *)
Definition merge (p : payload) (t : Z) (g : game) : game :=
  {| _id := _id g;
     name := match p_name p with Some s => s | None => name g end;
     url := match p_url p with Some s => s | None => url g end;
     author := match p_author p with Some s => s | None => author g end;
     datePublished :=
       match p_datePublished p with Some s => s | None => datePublished g end;
     createdAt := createdAt g;
     updatedAt := t;
     __v := __v g |}.

Definition immutableField : error :=
  MongoServerError 66
    "Performing an update on the path '_id' would modify the immutable field '_id'".

(** The cast of the update: an [_id] in it must cast to an ObjectId. *)
Definition castUpdate (b : body) : result (option ObjectId) :=
  match body_id b with
  | None => Ok None
  | Some s =>
      match castObjectId s with
      | Some o => Ok (Some o)
      | None => Throw (CastError s "_id")
      end
  end.

(** The server refuses an update that would give a document another [_id]. *)
Definition keepsId (set_id : option ObjectId) (g : game) : bool :=
  match set_id with
  | None => true
  | Some o => ObjectId_eqb o (_id g)
  end.

(** [Game.findByIdAndUpdate(id, req.body, { new: true })]: the filter and the
    update are cast, no validator runs, the first document with that [_id]
    is updated in place, and the document after the update is returned
    ([null] when there is none). *)
Definition Game_findByIdAndUpdate (e : env) (id : string) (b : body) (st : store)
  : result (option game * store) :=
  match castObjectId id with
  | None => Throw (CastError id "_id")
  | Some o =>
      match castUpdate b with
      | Throw err => Throw err
      | Ok set_id =>
          match findOne o st with
          | None => Ok (None, st)
          | Some g =>
              if keepsId set_id g
              then Ok (Some (merge (body_fields b) (now e) g),
                       updateOne o (merge (body_fields b) (now e)) st)
              else Throw immutableField
          end
      end
  end.

(** [Game.findByIdAndDelete(id)]: the document as it was, removed. *)
Definition Game_findByIdAndDelete (id : string) (st : store)
  : result (option game * store) :=
  match castObjectId id with
  | None => Throw (CastError id "_id")
  | Some o =>
      match findOne o st with
      | None => Ok (None, st)
      | Some g => Ok (Some g, deleteOne o st)
      end
  end.

(** ** The handlers of [app.js] *)

Inductive reply :=
| Doc (g : game)
| Docs (l : list game)
| Message (m : string).

Record response := {
  status : Z;
  json : reply
}.

Definition notFound (id : string) : response :=
  {| status := 404; json := Message ("Cannot find the game with id " ++ id) |}.

Definition serverError (err : error) : response :=
  {| status := 500; json := Message (message err) |}.

(** [app.post("/game", ...)] *)
Definition post_game (e : env) (b : body) (st : store) : response * store :=
  let game := Game_new e b in
  match save e game st with
  | Ok (g, st') => ({| status := 200; json := Doc g |}, st')
  | Throw err => (serverError err, st)
  end.

(** [app.get("/games", ...)] *)
Definition get_games (st : store) : response * store :=
  match Game_find st with
  | Ok games => ({| status := 200; json := Docs games |}, st)
  | Throw err => (serverError err, st)
  end.

(** [app.get("/games/:id", ...)] *)
Definition get_games_id (id : string) (st : store) : response * store :=
  match Game_findById id st with
  | Ok None => (notFound id, st)
  | Ok (Some g) => ({| status := 200; json := Doc g |}, st)
  | Throw err => (serverError err, st)
  end.

(** [app.put('/games/:id', ...)] *)
Definition put_games_id (e : env) (id : string) (b : body) (st : store)
  : response * store :=
  match Game_findByIdAndUpdate e id b st with
  | Ok (None, st') => (notFound id, st')
  | Ok (Some g, st') => ({| status := 200; json := Doc g |}, st')
  | Throw err => (serverError err, st)
  end.

(** [app.delete('/games/:id', ...)] *)
Definition delete_games_id (id : string) (st : store) : response * store :=
  match Game_findByIdAndDelete id st with
  | Ok (None, st') => (notFound id, st')
  | Ok (Some g, st') => ({| status := 200; json := Doc g |}, st')
  | Throw err => (serverError err, st)
  end.

(** ** The service as a whole: requests served one after the other *)

Inductive request :=
| POST_game (b : body)
| GET_games
| GET_games_id (id : string)
| PUT_games_id (id : string) (b : body)
| DELETE_games_id (id : string).

Definition app (e : env) (r : request) (st : store) : response * store :=
  match r with
  | POST_game b => post_game e b st
  | GET_games => get_games st
  | GET_games_id id => get_games_id id st
  | PUT_games_id id b => put_games_id e id b st
  | DELETE_games_id id => delete_games_id id st
  end.

Fixpoint serve (rs : list (env * request)) (st : store) : store :=
  match rs with
  | [] => st
  | (e, r) :: rest => serve rest (snd (app e r st))
  end.

(** A store the service can be in: reached from the empty collection. *)
Definition reachable (st : store) : Prop :=
  exists rs, st = serve rs [].

(** ** Vocabulary of the properties *)

(** [part] occurs in [whole]. *)
Definition contains (part whole : string) : Prop :=
  exists pre post, whole = pre ++ part ++ post.

(** A required field is missing from a payload: absent, or the empty text. *)
Definition missing (p : payload) (f : path) : Prop :=
  payload_get p f = None \/ payload_get p f = Some EmptyString.

(** All four required fields are present and non-empty. *)
Definition complete (p : payload) : Prop :=
  forall f, exists s, payload_get p f = Some s /\ s <> EmptyString.

(** A POST request creates a record under [o] when the document it builds
    carries that [_id]. *)
Definition creates (o : ObjectId) (er : env * request) : Prop :=
  match snd er with
  | POST_game b => doc_id (Game_new (fst er) b) = o
  | _ => False
  end.

(** ** Sample requests *)

Definition sample_env : env :=
  {| db := "games"; oid_raw := 31415926535897932384626433; now := 1700000000000 |}.

Definition later_env : env :=
  {| db := "games"; oid_raw := 31415926535897932384626434; now := 1700000060000 |}.

Definition last_env : env :=
  {| db := "games"; oid_raw := 31415926535897932384626435; now := 1700000120000 |}.

Definition chess : payload :=
  {| p_name := Some "Chess"; p_url := Some "http://x";
     p_author := Some "A"; p_datePublished := Some "2020" |}.

Definition nameless : payload :=
  {| p_name := None; p_url := Some "http://x";
     p_author := Some "A"; p_datePublished := Some "2020" |}.

Definition only_author : payload :=
  {| p_name := None; p_url := None; p_author := Some "B"; p_datePublished := None |}.

Definition blank_name : payload :=
  {| p_name := Some EmptyString; p_url := None;
     p_author := None; p_datePublished := None |}.

Definition chosen_id : string := "65f0a1b2c3d4e5f601234567".

Definition chess_record : game :=
  {| _id := ObjectId_generate (oid_raw sample_env);
     name := "Chess"; url := "http://x"; author := "A"; datePublished := "2020";
     createdAt := 1700000000000; updatedAt := 1700000000000; __v := 0 |}.

Definition chess_later : game :=
  stamped later_env (Game_new later_env (body_of chess)).

Definition chess_last : game :=
  stamped last_env (Game_new last_env (body_of chess)).

(** ** Vocabulary of the further properties *)

(** The id a request is about, for the three routes under [/games/:id]. *)
Definition request_id (r : request) : option string :=
  match r with
  | GET_games_id id => Some id
  | PUT_games_id id _ => Some id
  | DELETE_games_id id => Some id
  | _ => None
  end.

(** The two GET routes. *)
Definition is_read (r : request) : bool :=
  match r with
  | GET_games => true
  | GET_games_id _ => true
  | _ => false
  end.

(** The payload that provides what [later] provides and, for the fields
    [later] leaves out, what [earlier] provides. *)
Definition overlay (later earlier : payload) : payload :=
  {| p_name := match p_name later with Some s => Some s | None => p_name earlier end;
     p_url := match p_url later with Some s => Some s | None => p_url earlier end;
     p_author :=
       match p_author later with Some s => Some s | None => p_author earlier end;
     p_datePublished :=
       match p_datePublished later with
       | Some s => Some s
       | None => p_datePublished earlier
       end |}.

(** Every id of the collection is the cast of the string it is sent as. *)
Definition wellformed (st : store) : Prop :=
  forall g, In g st -> castObjectId (toHexString (_id g)) = Some (_id g).

(** The four required fields of a record pass the [required] validator. *)
Definition filled (g : game) : Prop :=
  forall f, checkRequired (Some (game_get g f)) = true.

(** The update route. *)
Definition is_update (r : request) : bool :=
  match r with
  | PUT_games_id _ _ => true
  | _ => false
  end.

(** * Properties *)

(** ** Hexadecimal text *)

Module HexFacts.
Import Hex.

Lemma lower_char_hex (c : ascii) :
  isHexDigit c = true -> isHexDigit (toLowerCase_char c) = true.
Proof.
  destruct c as [[] [] [] [] [] [] [] []]; vm_compute; intros H;
    first [ reflexivity | discriminate H ].
Qed.

Lemma lower_char_idem (c : ascii) :
  toLowerCase_char (toLowerCase_char c) = toLowerCase_char c.
Proof. destruct c as [[] [] [] [] [] [] [] []]; reflexivity. Qed.

Lemma lower_length (s : string) :
  String.length (toLowerCase s) = String.length s.
Proof. induction s as [|c r IH]; simpl; [reflexivity | now rewrite IH]. Qed.

Lemma lower_hex (s : string) :
  all_chars isHexDigit s = true ->
  all_chars isHexDigit (toLowerCase s) = true.
Proof.
  induction s as [|c r IH]; simpl; [reflexivity |].
  intros H. apply andb_true_iff in H as [Hc Hr].
  now rewrite (lower_char_hex c Hc), (IH Hr).
Qed.

Lemma lower_idem (s : string) :
  toLowerCase (toLowerCase s) = toLowerCase s.
Proof.
  induction s as [|c r IH]; simpl; [reflexivity |].
  now rewrite lower_char_idem, IH.
Qed.

Lemma append_length (a b : string) :
  String.length (a ++ b) = (String.length a + String.length b)%nat.
Proof. induction a as [|c r IH]; simpl; [reflexivity | now rewrite IH]. Qed.

Lemma append_all (f : ascii -> bool) (a b : string) :
  all_chars f (a ++ b) = all_chars f a && all_chars f b.
Proof.
  induction a as [|c r IH]; simpl; [reflexivity |].
  now rewrite IH, andb_assoc.
Qed.

Lemma append_lower (a b : string) :
  toLowerCase (a ++ b) = toLowerCase a ++ toLowerCase b.
Proof. induction a as [|c r IH]; simpl; [reflexivity | now rewrite IH]. Qed.

Lemma digit_small (d : N) :
  (d < 16)%N ->
  isHexDigit (digit d) = true /\ toLowerCase_char (digit d) = digit d.
Proof.
  intros H.
  assert (Hd : In d [0; 1; 2; 3; 4; 5; 6; 7; 8; 9; 10; 11; 12; 13; 14; 15]%N).
  { destruct d as [|q]; [now left |].
    do 4 (destruct q as [q|q|]; try lia; try (simpl; tauto)). }
  simpl in Hd.
  repeat (destruct Hd as [<- | Hd]; [split; reflexivity |]).
  destruct Hd.
Qed.

Lemma render_length (w : nat) (v : N) : String.length (render w v) = w.
Proof.
  revert v; induction w as [|k IH]; intros v; simpl; [reflexivity |].
  rewrite append_length, IH. simpl. lia.
Qed.

Lemma render_hex (w : nat) (v : N) :
  all_chars isHexDigit (render w v) = true.
Proof.
  revert v; induction w as [|k IH]; intros v; simpl; [reflexivity |].
  rewrite append_all, IH. simpl.
  destruct (digit_small (v mod 16)) as [-> _]; [|reflexivity].
  apply N.mod_upper_bound. discriminate.
Qed.

Lemma render_lower (w : nat) (v : N) : toLowerCase (render w v) = render w v.
Proof.
  revert v; induction w as [|k IH]; intros v; simpl; [reflexivity |].
  rewrite append_lower, IH. simpl.
  destruct (digit_small (v mod 16)) as [_ ->]; [|reflexivity].
  apply N.mod_upper_bound. discriminate.
Qed.

End HexFacts.

(** ** ObjectId *)

Lemma ObjectId_eqb_eq (a b : ObjectId) : ObjectId_eqb a b = true <-> a = b.
Proof.
  destruct a as [x], b as [y]. unfold ObjectId_eqb; simpl.
  rewrite String.eqb_eq. split; [intros -> | intros [= ->]]; reflexivity.
Qed.

Lemma ObjectId_eqb_refl (a : ObjectId) : ObjectId_eqb a a = true.
Proof. now apply ObjectId_eqb_eq. Qed.

Lemma ObjectId_eqb_neq (a b : ObjectId) : ObjectId_eqb a b = false <-> a <> b.
Proof.
  rewrite <- ObjectId_eqb_eq. destruct (ObjectId_eqb a b); split; congruence.
Qed.

(** The string an ObjectId is sent as casts back to that ObjectId. *)
Lemma castObjectId_idem (s : string) (o : ObjectId) :
  castObjectId s = Some o -> castObjectId (toHexString o) = Some o.
Proof.
  unfold castObjectId, isValid. destruct (_ && _) eqn:E; [|discriminate].
  intros [= <-]. simpl. apply andb_true_iff in E as [E1 E2].
  rewrite HexFacts.lower_length, E1, (HexFacts.lower_hex s E2). simpl.
  now rewrite HexFacts.lower_idem.
Qed.


Lemma castObjectId_generate (raw : N) :
  castObjectId (toHexString (ObjectId_generate raw)) = Some (ObjectId_generate raw).
Proof.
  unfold castObjectId, isValid, ObjectId_generate, toHexString.
  rewrite HexFacts.render_length, HexFacts.render_hex, Nat.eqb_refl.
  cbn [andb]. now rewrite HexFacts.render_lower.
Qed.


(** ** The collection's primitives *)

Section Collection.

Implicit Types (o : ObjectId) (st : store) (g : game).

Lemma findOne_id o st g : findOne o st = Some g -> _id g = o.
Proof.
  induction st as [|x r IH]; simpl; [discriminate |].
  destruct (ObjectId_eqb (_id x) o) eqn:E; [|exact IH].
  intros [= <-]. now apply ObjectId_eqb_eq.
Qed.

Lemma findOne_In o st g : findOne o st = Some g -> In g st.
Proof.
  induction st as [|x r IH]; simpl; [discriminate |].
  destruct (ObjectId_eqb (_id x) o); [intros [= <-]; now left |].
  intros H; right; auto.
Qed.

Lemma findOne_None o st : findOne o st = None <-> ~ In o (map _id st).
Proof.
  induction st as [|x r IH]; simpl; [tauto |].
  destruct (ObjectId_eqb (_id x) o) eqn:E.
  - apply ObjectId_eqb_eq in E. split; [discriminate | tauto].
  - apply ObjectId_eqb_neq in E. rewrite IH. tauto.
Qed.

Lemma findOne_app o st g :
  findOne o st = None -> findOne o (st ++ [g])%list
                         = if ObjectId_eqb (_id g) o then Some g else None.
Proof.
  induction st as [|x r IH]; simpl; [reflexivity |].
  destruct (ObjectId_eqb (_id x) o); [discriminate | exact IH].
Qed.

Lemma updateOne_ids o (f : game -> game) st :
  (forall g, _id (f g) = _id g) -> map _id (updateOne o f st) = map _id st.
Proof.
  intros Hf. induction st as [|x r IH]; simpl; [reflexivity |].
  destruct (ObjectId_eqb (_id x) o); simpl; [now rewrite Hf | now rewrite IH].
Qed.

Lemma findOne_updateOne o (f : game -> game) st g :
  (forall g, _id (f g) = _id g) ->
  findOne o st = Some g -> findOne o (updateOne o f st) = Some (f g).
Proof.
  intros Hf. induction st as [|x r IH]; simpl; [discriminate |].
  destruct (ObjectId_eqb (_id x) o) eqn:E; simpl.
  - intros [= <-]. now rewrite Hf, E.
  - now rewrite E.
Qed.

Lemma findOne_updateOne_other o o' (f : game -> game) st :
  (forall g, _id (f g) = _id g) -> o' <> o ->
  findOne o' (updateOne o f st) = findOne o' st.
Proof.
  intros Hf Hne. induction st as [|x r IH]; simpl; [reflexivity |].
  destruct (ObjectId_eqb (_id x) o) eqn:E; simpl.
  - rewrite Hf. apply ObjectId_eqb_eq in E.
    assert (E' : ObjectId_eqb (_id x) o' = false)
      by (apply ObjectId_eqb_neq; congruence).
    now rewrite E'.
  - now rewrite IH.
Qed.

Lemma deleteOne_incl o st x : In x (map _id (deleteOne o st)) -> In x (map _id st).
Proof.
  induction st as [|y r IH]; simpl; [tauto |].
  destruct (ObjectId_eqb (_id y) o); simpl; tauto.
Qed.

Lemma deleteOne_NoDup o st : NoDup (map _id st) -> NoDup (map _id (deleteOne o st)).
Proof.
  induction st as [|y r IH]; simpl; [auto |].
  intros H. inversion H as [|? ? Hn Hr]; subst.
  destruct (ObjectId_eqb (_id y) o); simpl; [assumption |].
  constructor; [|auto]. intros Hin. apply Hn. eapply deleteOne_incl; eauto.
Qed.

Lemma deleteOne_gone o st : NoDup (map _id st) -> ~ In o (map _id (deleteOne o st)).
Proof.
  induction st as [|y r IH]; simpl; [tauto |].
  intros H. inversion H as [|? ? Hn Hr]; subst.
  destruct (ObjectId_eqb (_id y) o) eqn:E; simpl.
  - apply ObjectId_eqb_eq in E. now subst.
  - apply ObjectId_eqb_neq in E. intros [?|?]; [congruence | now apply IH].
Qed.

Lemma findOne_deleteOne_other o o' st :
  o' <> o -> findOne o' (deleteOne o st) = findOne o' st.
Proof.
  intros Hne. induction st as [|y r IH]; simpl; [reflexivity |].
  destruct (ObjectId_eqb (_id y) o) eqn:E; simpl.
  - apply ObjectId_eqb_eq in E.
    assert (E' : ObjectId_eqb (_id y) o' = false)
      by (apply ObjectId_eqb_neq; congruence).
    now rewrite E'.
  - now rewrite IH.
Qed.

End Collection.

(** ** Text *)

Lemma append_nil_r (s : string) : s ++ EmptyString = s.
Proof. induction s as [|c r IH]; simpl; [reflexivity | now rewrite IH]. Qed.

Lemma append_assoc (a b c : string) : (a ++ b) ++ c = a ++ b ++ c.
Proof. induction a as [|x r IH]; simpl; [reflexivity | now rewrite IH]. Qed.

Lemma contains_refl (s : string) : contains s s.
Proof. exists EmptyString, EmptyString. now rewrite append_nil_r. Qed.

Lemma contains_prefixed (part pre whole : string) :
  contains part whole -> contains part (pre ++ whole).
Proof.
  intros (a & b & ->). exists (pre ++ a), b. now rewrite append_assoc.
Qed.

Lemma contains_suffixed (part whole post : string) :
  contains part whole -> contains part (whole ++ post).
Proof.
  intros (a & b & ->). exists a, (b ++ post). now rewrite !append_assoc.
Qed.

Lemma join_contains (sep : string) (x : string) (l : list string) :
  In x l -> contains x (join sep l).
Proof.
  induction l as [|y r IH]; [intros [] |].
  intros [-> | Hin].
  - destruct r; simpl; [apply contains_refl |].
    apply contains_suffixed, contains_refl.
  - destruct r as [|z r']; [destruct Hin |].
    change (join sep (y :: z :: r')) with (y ++ sep ++ join sep (z :: r')).
    now apply contains_prefixed, contains_prefixed, IH.
Qed.

(** ** Validation *)

Lemma checkRequired_false (p : payload) (f : path) :
  checkRequired (payload_get p f) = false <-> missing p f.
Proof.
  unfold missing, checkRequired.
  destruct (payload_get p f) as [[|c r]|]; simpl; split;
    try tauto; try discriminate; intros [H|H]; discriminate H.
Qed.

Lemma checkRequired_true (p : payload) (f : path) :
  complete p -> checkRequired (payload_get p f) = true.
Proof.
  intros H. destruct (H f) as (s & -> & Hs).
  destruct s; [congruence | reflexivity].
Qed.

Lemma path_name_inj (f f' : path) : path_name f = path_name f' -> f = f'.
Proof. destruct f, f'; simpl; intros H; first [reflexivity | discriminate H]. Qed.

Lemma validate_fields (p : payload) (f : path) :
  In (path_name f, required_message f) (flat_map (validatePath p) gameSchema)
  <-> missing p f.
Proof.
  rewrite <- checkRequired_false, in_flat_map. split.
  - intros (f' & _ & Hin). unfold validatePath in Hin.
    destruct (checkRequired (payload_get p f')) eqn:E; [destruct Hin |].
    destruct Hin as [[= Hn _] | []]. apply path_name_inj in Hn. now subst.
  - intros E. exists f. split; [destruct f; simpl; tauto |].
    unfold validatePath. rewrite E. now left.
Qed.

Lemma validate_complete (p : payload) :
  complete p -> flat_map (validatePath p) gameSchema = [].
Proof.
  intros H. unfold gameSchema, validatePath. cbn [flat_map].
  now rewrite !(checkRequired_true p _ H).
Qed.

Lemma text_complete (p : payload) (f : path) :
  complete p -> payload_get p f = Some (text (payload_get p f)).
Proof. intros H. destruct (H f) as (s & -> & _). reflexivity. Qed.

(** The errors a new document carries before validation are about [_id]. *)
Lemma Game_new_errors (e : env) (b : body) (k m : string) :
  In (k, m) (doc_errors (Game_new e b)) -> k = "_id".
Proof.
  unfold Game_new. destruct (body_id b) as [s|]; [|intros []].
  destruct (castObjectId s); simpl; [intros [] |].
  intros [[= <- _] | []]. reflexivity.
Qed.

Lemma Game_new_fields (e : env) (b : body) :
  doc_fields (Game_new e b) = body_fields b.
Proof.
  unfold Game_new. destruct (body_id b) as [s|]; [|reflexivity].
  destruct (castObjectId s); reflexivity.
Qed.

Lemma validate_required (e : env) (b : body) (f : path) :
  In (path_name f, required_message f) (validate (Game_new e b))
  <-> missing (body_fields b) f.
Proof.
  unfold validate. rewrite in_app_iff, Game_new_fields, validate_fields.
  split; [|tauto]. intros [H | H]; [|exact H].
  apply Game_new_errors in H. destruct f; discriminate H.
Qed.

(** ** What a request does to the collection *)

(** The two outcomes of [save]. *)
Lemma save_cases (e : env) (d : document) (st : store) :
  (exists err, save e d st = Throw err)
  \/ (save e d st = Ok (stamped e d, (st ++ [stamped e d])%list)
      /\ validate d = [] /\ findOne (doc_id d) st = None).
Proof.
  unfold save. destruct (validate d) as [|x r]; [|left; eauto].
  destruct (findOne (doc_id d) st); [left; eauto | right; auto].
Qed.

Lemma post_game_cases (e : env) (b : body) (st : store) :
  (exists err, post_game e b st = (serverError err, st))
  \/ (let g := stamped e (Game_new e b) in
      post_game e b st = ({| status := 200; json := Doc g |}, (st ++ [g])%list)
      /\ validate (Game_new e b) = []
      /\ findOne (_id g) st = None).
Proof.
  unfold post_game.
  destruct (save_cases e (Game_new e b) st) as [[err ->] | (-> & Hv & Hf)];
    [left; eauto | right; auto].
Qed.

Lemma merge_id (p : payload) (t : Z) (g : game) : _id (merge p t g) = _id g.
Proof. reflexivity. Qed.

Lemma put_games_id_ids (e : env) (id : string) (b : body) (st : store) :
  map _id (snd (put_games_id e id b st)) = map _id st.
Proof.
  unfold put_games_id, Game_findByIdAndUpdate.
  destruct (castObjectId id) as [o|]; [|reflexivity].
  destruct (castUpdate b) as [set_id|err]; [|reflexivity].
  destruct (findOne o st) as [g|]; [|reflexivity].
  destruct (keepsId set_id g); [|reflexivity].
  simpl. apply updateOne_ids, merge_id.
Qed.

Lemma delete_games_id_store (id : string) (st : store) :
  snd (delete_games_id id st) = st
  \/ exists o, castObjectId id = Some o /\ snd (delete_games_id id st) = deleteOne o st.
Proof.
  unfold delete_games_id, Game_findByIdAndDelete.
  destruct (castObjectId id) as [o|]; [|now left].
  destruct (findOne o st); [right; eauto | now left].
Qed.

Lemma get_games_id_store (id : string) (st : store) :
  snd (get_games_id id st) = st.
Proof.
  unfold get_games_id, Game_findById.
  destruct (castObjectId id) as [o|]; [|reflexivity].
  destruct (findOne o st); reflexivity.
Qed.

Lemma NoDup_snoc {A : Type} (l : list A) (x : A) :
  NoDup l -> ~ In x l -> NoDup (l ++ [x])%list.
Proof.
  induction l as [|y r IH]; simpl; intros Hl Hx.
  - constructor; [tauto | constructor].
  - inversion Hl as [|? ? Hn Hr]; subst. constructor.
    + rewrite in_app_iff. simpl. intuition congruence.
    + apply IH; tauto.
Qed.

(** Every request keeps the [_id]s of the collection distinct. *)
Lemma app_unique_ids (e : env) (r : request) (st : store) :
  NoDup (map _id st) -> NoDup (map _id (snd (app e r st))).
Proof.
  intros H. destruct r as [b| |id|id b|id]; simpl.
  - destruct (post_game_cases e b st) as [[err ->] | (-> & _ & Hf)]; [exact H |].
    simpl. rewrite map_app. apply NoDup_snoc; [exact H |].
    now apply findOne_None.
  - exact H.
  - now rewrite get_games_id_store.
  - now rewrite put_games_id_ids.
  - destruct (delete_games_id_store id st) as [-> | (o & _ & ->)];
      [exact H | now apply deleteOne_NoDup].
Qed.

Lemma serve_unique_ids (rs : list (env * request)) (st : store) :
  NoDup (map _id st) -> NoDup (map _id (serve rs st)).
Proof.
  revert st; induction rs as [|[e r] rest IH]; intros st H; simpl; [exact H |].
  apply IH, app_unique_ids, H.
Qed.

Lemma reachable_unique_ids (st : store) :
  reachable st -> NoDup (map _id st).
Proof. intros [rs ->]. apply serve_unique_ids. constructor. Qed.

Lemma post_game_ok (e : env) (b : body) (st st' : store) (g : game) :
  post_game e b st = ({| status := 200; json := Doc g |}, st') ->
  g = stamped e (Game_new e b) /\ st' = (st ++ [g])%list
  /\ validate (Game_new e b) = [] /\ findOne (_id g) st = None.
Proof.
  destruct (post_game_cases e b st) as [[err ->] | (-> & Hv & Hf)].
  - unfold serverError. intros H. discriminate H.
  - intros [= <- <-]. auto.
Qed.

Lemma app_ids_not_created (o : ObjectId) (e : env) (r : request) (st : store) :
  ~ creates o (e, r) -> ~ In o (map _id st) -> ~ In o (map _id (snd (app e r st))).
Proof.
  intros Hc Hn. destruct r as [b| |id|id b|id]; simpl.
  - destruct (post_game_cases e b st) as [[err ->] | (-> & _ & _)]; [exact Hn |].
    simpl. rewrite map_app, in_app_iff. simpl. unfold creates in Hc; simpl in Hc.
    intuition congruence.
  - exact Hn.
  - now rewrite get_games_id_store.
  - now rewrite put_games_id_ids.
  - destruct (delete_games_id_store id st) as [-> | (o' & _ & ->)]; [exact Hn |].
    intros H. apply Hn. eapply deleteOne_incl; eauto.
Qed.

Lemma serve_ids_not_created (o : ObjectId) (rs : list (env * request)) (st : store) :
  (forall er, In er rs -> ~ creates o er) ->
  ~ In o (map _id st) -> ~ In o (map _id (serve rs st)).
Proof.
  revert st; induction rs as [|[e r] rest IH]; intros st Hrs Hn; simpl; [exact Hn |].
  apply IH; [intros er Her; apply Hrs; now right |].
  apply app_ids_not_created; [apply Hrs; now left | exact Hn].
Qed.

Lemma get_games_id_absent (id : string) (o : ObjectId) (st : store) :
  castObjectId id = Some o -> ~ In o (map _id st) ->
  get_games_id id st = (notFound id, st).
Proof.
  intros Hc Hn. apply findOne_None in Hn.
  unfold get_games_id, Game_findById. now rewrite Hc, Hn.
Qed.

Lemma get_games_id_found (id : string) (o : ObjectId) (st : store) (g : game) :
  castObjectId id = Some o -> findOne o st = Some g ->
  get_games_id id st = ({| status := 200; json := Doc g |}, st).
Proof.
  intros Hc Hf. unfold get_games_id, Game_findById. now rewrite Hc, Hf.
Qed.

Lemma put_games_id_found (e : env) (id : string) (o : ObjectId) (p : payload)
      (st : store) (g : game) :
  castObjectId id = Some o -> findOne o st = Some g ->
  put_games_id e id (body_of p) st
  = ({| status := 200; json := Doc (merge p (now e) g) |},
     updateOne o (merge p (now e)) st).
Proof.
  intros Hc Hf. unfold put_games_id, Game_findByIdAndUpdate. simpl.
  now rewrite Hc, Hf.
Qed.

Lemma save_payload (e : env) (p : payload) (st : store) :
  complete p ->
  ~ In (ObjectId_generate (oid_raw e)) (map _id st) ->
  save e (Game_new e (body_of p)) st
  = Ok (stamped e (Game_new e (body_of p)),
        (st ++ [stamped e (Game_new e (body_of p))])%list).
Proof.
  intros Hp Hfresh. apply findOne_None in Hfresh.
  unfold save, validate.
  change (Game_new e (body_of p))
    with {| doc_id := ObjectId_generate (oid_raw e);
            doc_fields := p; doc_errors := [] |}.
  cbn [doc_errors doc_fields doc_id app].
  now rewrite (validate_complete p Hp), Hfresh.
Qed.

(** * The claims *)

(** C1.  A creation whose body lacks a required field (absent, or the empty
    text) fails: [save] throws a ValidationError that has one entry per
    missing field, each with the message of that field's validator and no
    entry for a field that is there; the message sent back (status 500) names
    the missing field with its message; the collection is left as it was. *)
Theorem create_missing_field (e : env) (b : body) (st : store) (f : path) :
  missing (body_fields b) f ->
  exists errors,
    save e (Game_new e b) st = Throw (ValidationError errors)
    /\ error_name (ValidationError errors) = "ValidationError"
    /\ (forall f', In (path_name f', required_message f') errors
                   <-> missing (body_fields b) f')
    /\ contains (path_name f ++ ": " ++ required_message f)
                (message (ValidationError errors))
    /\ post_game e b st
       = ({| status := 500; json := Message (message (ValidationError errors)) |}, st).
Proof.
  intros Hm. exists (validate (Game_new e b)).
  assert (Hin := proj2 (validate_required e b f) Hm).
  assert (Hs : save e (Game_new e b) st
               = Throw (ValidationError (validate (Game_new e b)))).
  { unfold save. destruct (validate (Game_new e b)); [destruct Hin | reflexivity]. }
  repeat split.
  - exact Hs.
  - apply validate_required.
  - apply validate_required.
  - unfold message. apply contains_prefixed, join_contains.
    apply (in_map (fun kv => fst kv ++ ": " ++ snd kv)) in Hin. exact Hin.
  - unfold post_game. now rewrite Hs.
Qed.

Lemma create_missing_field_witness :
  exists errors,
    save sample_env (Game_new sample_env (body_of nameless)) []
    = Throw (ValidationError errors)
    /\ error_name (ValidationError errors) = "ValidationError"
    /\ (forall f', In (path_name f', required_message f') errors
                   <-> missing (body_fields (body_of nameless)) f')
    /\ contains (path_name Name ++ ": " ++ required_message Name)
                (message (ValidationError errors))
    /\ post_game sample_env (body_of nameless) []
       = ({| status := 500; json := Message (message (ValidationError errors)) |}, []).
Proof.
  exact (create_missing_field sample_env (body_of nameless) [] Name
           (or_introl eq_refl)).
Defined.




(** C3.  An update of an existing record with a partial payload succeeds
    with status 200 and sends back the record after the update: each field
    the payload provides has the payload's value, each field it leaves out
    keeps the value it had, [updatedAt] is the time of the update, and
    [_id], [createdAt] and [__v] are as before.  That record is the one
    stored under the id, and no other record of the collection changes. *)
Theorem update_merges (e : env) (id : string) (o : ObjectId) (p : payload)
        (st : store) (g : game) :
  castObjectId id = Some o ->
  findOne o st = Some g ->
  exists g' st',
    put_games_id e id (body_of p) st = ({| status := 200; json := Doc g' |}, st')
    /\ (forall f, game_get g' f = match payload_get p f with
                                  | Some s => s
                                  | None => game_get g f
                                  end)
    /\ updatedAt g' = now e
    /\ _id g' = _id g /\ createdAt g' = createdAt g /\ __v g' = __v g
    /\ findOne o st' = Some g'
    /\ (forall o', o' <> o -> findOne o' st' = findOne o' st)
    /\ map _id st' = map _id st.
Proof.
  intros Hc Hf.
  exists (merge p (now e) g), (updateOne o (merge p (now e)) st).
  split; [now apply put_games_id_found |].
  split; [intros f; destruct f; reflexivity |].
  do 4 (split; [reflexivity |]).
  split; [now apply findOne_updateOne |].
  split; [intros o' Hne; now apply findOne_updateOne_other |].
  now apply updateOne_ids.
Qed.

Lemma update_merges_witness :
  exists g' st',
    put_games_id later_env (toHexString (_id chess_record)) (body_of only_author)
                 [chess_record]
    = ({| status := 200; json := Doc g' |}, st')
    /\ (forall f, game_get g' f = match payload_get only_author f with
                                  | Some s => s
                                  | None => game_get chess_record f
                                  end)
    /\ updatedAt g' = now later_env
    /\ _id g' = _id chess_record /\ createdAt g' = createdAt chess_record
    /\ __v g' = __v chess_record
    /\ findOne (_id chess_record) st' = Some g'
    /\ (forall o', o' <> _id chess_record ->
                   findOne o' st' = findOne o' [chess_record])
    /\ map _id st' = map _id [chess_record].
Proof.
  apply (update_merges later_env (toHexString (_id chess_record))
           (_id chess_record) only_author [chess_record] chess_record);
    vm_compute; reflexivity.
Defined.

(** C4, as amended.  Deleting by an id that resolves to a record of the
    collection succeeds with status 200 and sends back that record as it was
    stored; the record is gone from the collection and the others stay; a
    GetById of the same id answers 404 right after the deletion and after
    any further requests, as long as none of them creates a record under
    that id again. *)
Theorem delete_removes (id : string) (o : ObjectId) (st : store) (g : game) :
  reachable st ->
  castObjectId id = Some o ->
  findOne o st = Some g ->
  exists st',
    delete_games_id id st = ({| status := 200; json := Doc g |}, st')
    /\ In g st
    /\ ~ In o (map _id st')
    /\ (forall o', o' <> o -> findOne o' st' = findOne o' st)
    /\ get_games_id id st' = (notFound id, st')
    /\ (forall rs, (forall er, In er rs -> ~ creates o er) ->
                   get_games_id id (serve rs st') = (notFound id, serve rs st')).
Proof.
  intros Hr Hc Hf. exists (deleteOne o st).
  assert (Hgone : ~ In o (map _id (deleteOne o st)))
    by (apply deleteOne_gone, reachable_unique_ids, Hr).
  split; [unfold delete_games_id, Game_findByIdAndDelete; now rewrite Hc, Hf |].
  split; [eapply findOne_In; eauto |].
  split; [exact Hgone |].
  split; [intros o' Hne; now apply findOne_deleteOne_other |].
  split; [now apply (get_games_id_absent id o) |].
  intros rs Hrs. apply (get_games_id_absent id o); [exact Hc |].
  now apply serve_ids_not_created.
Qed.

Lemma delete_removes_witness :
  exists st',
    delete_games_id (toHexString (_id chess_record)) [chess_record]
    = ({| status := 200; json := Doc chess_record |}, st')
    /\ In chess_record [chess_record]
    /\ ~ In (_id chess_record) (map _id st')
    /\ (forall o', o' <> _id chess_record ->
                   findOne o' st' = findOne o' [chess_record])
    /\ get_games_id (toHexString (_id chess_record)) st'
       = (notFound (toHexString (_id chess_record)), st')
    /\ (forall rs, (forall er, In er rs -> ~ creates (_id chess_record) er) ->
                   get_games_id (toHexString (_id chess_record)) (serve rs st')
                   = (notFound (toHexString (_id chess_record)), serve rs st')).
Proof.
  apply (delete_removes (toHexString (_id chess_record)) (_id chess_record)
           [chess_record] chess_record).
  - exists [(sample_env, POST_game (body_of chess))]. vm_compute. reflexivity.
  - vm_compute. reflexivity.
  - vm_compute. reflexivity.
Defined.

(** C4, as stated, fails.  A record is created under an [_id] of the
    client's choosing and deleted, which answers 200 with the record; a
    creation with the same [_id] follows, and the GetById of that id after it
    does not answer 404: it answers 200 with the new record. *)
Lemma delete_then_recreate_counterexample :
  exists g g',
    post_game sample_env {| body_id := Some chosen_id; body_fields := chess |} []
    = ({| status := 200; json := Doc g |}, [g])
    /\ delete_games_id chosen_id [g] = ({| status := 200; json := Doc g |}, [])
    /\ post_game later_env {| body_id := Some chosen_id; body_fields := chess |} []
       = ({| status := 200; json := Doc g' |}, [g'])
    /\ get_games_id chosen_id [g'] = ({| status := 200; json := Doc g' |}, [g'])
    /\ fst (get_games_id chosen_id [g']) <> notFound chosen_id.
Proof.
  do 2 eexists.
  split; [vm_compute; reflexivity |].
  split; [vm_compute; reflexivity |].
  split; [vm_compute; reflexivity |].
  split; [vm_compute; reflexivity |].
  vm_compute. discriminate.
Qed.

(** C5, as amended.  For an id that is a well-formed identifier (it casts to
    an ObjectId) under which the collection holds no record, GetById,
    UpdateById (with any payload) and DeleteById each answer 404 with the
    message "Cannot find the game with id " followed by the id as requested,
    and leave the collection as it was. *)
Theorem absent_id_not_found (id : string) (o : ObjectId) (st : store) :
  castObjectId id = Some o ->
  ~ In o (map _id st) ->
  let r := {| status := 404;
              json := Message ("Cannot find the game with id " ++ id) |} in
  get_games_id id st = (r, st)
  /\ (forall e p, put_games_id e id (body_of p) st = (r, st))
  /\ delete_games_id id st = (r, st).
Proof.
  intros Hc Hn r. split; [now apply (get_games_id_absent id o) |].
  apply findOne_None in Hn. split.
  - intros e p. unfold put_games_id, Game_findByIdAndUpdate. simpl.
    now rewrite Hc, Hn.
  - unfold delete_games_id, Game_findByIdAndDelete. now rewrite Hc, Hn.
Qed.

Lemma absent_id_not_found_witness :
  let r := {| status := 404;
              json := Message ("Cannot find the game with id " ++ chosen_id) |} in
  get_games_id chosen_id [chess_record] = (r, [chess_record])
  /\ (forall e p, put_games_id e chosen_id (body_of p) [chess_record]
                  = (r, [chess_record]))
  /\ delete_games_id chosen_id [chess_record] = (r, [chess_record]).
Proof.
  apply (absent_id_not_found chosen_id (OID chosen_id) [chess_record]).
  - vm_compute. reflexivity.
  - vm_compute. intros [H | []]. discriminate H.
Defined.

(** C5, as stated, fails: no record exists under the id "abc" in the empty
    collection, and GetById, UpdateById and DeleteById answer 500 with the
    message of the cast error, not 404. *)
Lemma absent_id_counterexample :
  get_games_id "abc" [] = (serverError (CastError "abc" "_id"), [])
  /\ put_games_id sample_env "abc" (body_of only_author) []
     = (serverError (CastError "abc" "_id"), [])
  /\ delete_games_id "abc" [] = (serverError (CastError "abc" "_id"), [])
  /\ status (serverError (CastError "abc" "_id")) = 500%Z
  /\ status (fst (get_games_id "abc" [])) <> 404%Z.
Proof. vm_compute. repeat split; discriminate. Qed.

(** C6.  After a creation with a valid payload (the generated ObjectId being
    new to the collection), GetById of the id sent back by the creation
    answers 200 with the very record the creation sent back, whose four
    fields are the payload's.  In general GetById of an id that resolves to
    a stored record sends that record back as stored and leaves the
    collection as it was. *)
Theorem create_then_get (e : env) (p : payload) (st : store) :
  complete p ->
  ~ In (ObjectId_generate (oid_raw e)) (map _id st) ->
  (exists g st',
      post_game e (body_of p) st = ({| status := 200; json := Doc g |}, st')
      /\ get_games_id (toHexString (_id g)) st'
         = ({| status := 200; json := Doc g |}, st')
      /\ (forall f, payload_get p f = Some (game_get g f)))
  /\ (forall id o s g,
         castObjectId id = Some o -> findOne o s = Some g ->
         get_games_id id s = ({| status := 200; json := Doc g |}, s)).
Proof.
  intros Hp Hfresh. split; [|exact get_games_id_found].
  set (g := stamped e (Game_new e (body_of p))).
  exists g, (st ++ [g])%list.
  split; [unfold post_game; now rewrite (save_payload e p st Hp Hfresh) |].
  split.
  - apply (get_games_id_found _ (ObjectId_generate (oid_raw e))).
    + apply castObjectId_generate.
    + apply findOne_None in Hfresh. rewrite (findOne_app _ _ _ Hfresh).
      change (_id g) with (ObjectId_generate (oid_raw e)).
      now rewrite ObjectId_eqb_refl.
  - intros f. rewrite (text_complete p f Hp) at 1. destruct f; reflexivity.
Qed.

Lemma create_then_get_witness :
  (exists g st',
      post_game sample_env (body_of chess) []
      = ({| status := 200; json := Doc g |}, st')
      /\ get_games_id (toHexString (_id g)) st'
         = ({| status := 200; json := Doc g |}, st')
      /\ (forall f, payload_get chess f = Some (game_get g f)))
  /\ (forall id o s g,
         castObjectId id = Some o -> findOne o s = Some g ->
         get_games_id id s = ({| status := 200; json := Doc g |}, s)).
Proof.
  apply (create_then_get sample_env chess []).
  - intros f. destruct f; simpl; eexists; (split; [reflexivity | discriminate]).
  - simpl. tauto.
Defined.

(** C7.  ListAll always answers 200 with the whole collection, so on the
    empty collection it answers 200 with the empty sequence; and when three
    creations in a row succeed from the empty collection, sending back r1,
    r2 and r3, ListAll answers 200 with a sequence whose members are exactly
    r1, r2 and r3 (in that order). *)
Theorem list_all :
  (forall st, get_games st = ({| status := 200; json := Docs st |}, st))
  /\ get_games [] = ({| status := 200; json := Docs [] |}, [])
  /\ (forall e1 e2 e3 b1 b2 b3 r1 r2 r3 s1 s2 s3,
         post_game e1 b1 [] = ({| status := 200; json := Doc r1 |}, s1) ->
         post_game e2 b2 s1 = ({| status := 200; json := Doc r2 |}, s2) ->
         post_game e3 b3 s2 = ({| status := 200; json := Doc r3 |}, s3) ->
         exists l,
           get_games s3 = ({| status := 200; json := Docs l |}, s3)
           /\ l = [r1; r2; r3]
           /\ (forall g, In g l <-> g = r1 \/ g = r2 \/ g = r3)).
Proof.
  split; [reflexivity |]. split; [reflexivity |].
  intros e1 e2 e3 b1 b2 b3 r1 r2 r3 s1 s2 s3 H1 H2 H3.
  apply post_game_ok in H1 as (_ & -> & _).
  apply post_game_ok in H2 as (_ & -> & _).
  apply post_game_ok in H3 as (_ & -> & _).
  exists [r1; r2; r3]. split; [reflexivity |]. split; [reflexivity |].
  intros g. simpl. intuition congruence.
Qed.

Lemma list_all_witness :
  exists l,
    get_games [chess_record; chess_later; chess_last]
    = ({| status := 200; json := Docs l |}, [chess_record; chess_later; chess_last])
    /\ l = [chess_record; chess_later; chess_last]
    /\ (forall g, In g l <-> g = chess_record \/ g = chess_later \/ g = chess_last).
Proof.
  apply (proj2 (proj2 list_all) sample_env later_env last_env
           (body_of chess) (body_of chess) (body_of chess)
           chess_record chess_later chess_last
           [chess_record] [chess_record; chess_later]
           [chess_record; chess_later; chess_last]);
    vm_compute; reflexivity.
Defined.

(** C8.  An update validates nothing: on an existing record, a payload that
    sets a required field to the empty text is accepted with status 200, and
    the record stored afterwards has that field empty -- a value the
    [required] validator of a creation would refuse. *)
Theorem update_blanks_required (e : env) (id : string) (o : ObjectId)
        (p : payload) (st : store) (g : game) (f : path) :
  castObjectId id = Some o ->
  findOne o st = Some g ->
  payload_get p f = Some EmptyString ->
  exists g' st',
    put_games_id e id (body_of p) st = ({| status := 200; json := Doc g' |}, st')
    /\ findOne o st' = Some g'
    /\ game_get g' f = EmptyString
    /\ checkRequired (Some (game_get g' f)) = false.
Proof.
  intros Hc Hf Hp.
  exists (merge p (now e) g), (updateOne o (merge p (now e)) st).
  assert (E : game_get (merge p (now e) g) f = EmptyString).
  { destruct f; simpl in *; now rewrite Hp. }
  split; [now apply put_games_id_found |].
  split; [now apply findOne_updateOne |].
  split; [exact E | now rewrite E].
Qed.

Lemma update_blanks_required_witness :
  exists g' st',
    put_games_id later_env (toHexString (_id chess_record)) (body_of blank_name)
                 [chess_record]
    = ({| status := 200; json := Doc g' |}, st')
    /\ findOne (_id chess_record) st' = Some g'
    /\ game_get g' Name = EmptyString
    /\ checkRequired (Some (game_get g' Name)) = false.
Proof.
  apply (update_blanks_required later_env (toHexString (_id chess_record))
           (_id chess_record) blank_name [chess_record] chess_record Name);
    vm_compute; reflexivity.
Defined.

(** C9, as amended.  The id of a record is fixed when it is created: it is
    the [_id] of the request body when the body has one (which must then be
    a well-formed identifier), and the ObjectId the driver generates
    otherwise.  In every collection the service can reach, no two records
    have the same id.  No UpdateById changes an id: the ids of the
    collection are the same, record by record, after any update, and the
    record an update sends back has the id that was requested. *)
Theorem id_fixed_at_creation :
  (forall e b st g st',
      post_game e b st = ({| status := 200; json := Doc g |}, st') ->
      match body_id b with
      | Some s => castObjectId s = Some (_id g)
      | None => _id g = ObjectId_generate (oid_raw e)
      end)
  /\ (forall st, reachable st -> NoDup (map _id st))
  /\ (forall e id b st, map _id (snd (put_games_id e id b st)) = map _id st)
  /\ (forall e id b st g st',
         put_games_id e id b st = ({| status := 200; json := Doc g |}, st') ->
         castObjectId id = Some (_id g)).
Proof.
  split; [|split; [exact reachable_unique_ids | split; [exact put_games_id_ids |]]].
  - intros e b st g st' H. apply post_game_ok in H as (-> & _ & Hv & _).
    unfold validate, Game_new in *. destruct (body_id b) as [s|]; [|reflexivity].
    destruct (castObjectId s) as [o|]; [reflexivity |]. discriminate Hv.
  - intros e id b st g st'. unfold put_games_id, Game_findByIdAndUpdate.
    destruct (castObjectId id) as [o|]; [|intros H; discriminate H].
    destruct (castUpdate b) as [set_id|err]; [|intros H; discriminate H].
    destruct (findOne o st) as [x|] eqn:Hx; [|intros H; discriminate H].
    destruct (keepsId set_id x); [|intros H; discriminate H].
    intros [= <- _]. apply findOne_id in Hx. now rewrite merge_id, Hx.
Qed.

Lemma id_fixed_at_creation_witness :
  _id chess_record = ObjectId_generate (oid_raw sample_env)
  /\ NoDup (map _id [chess_record]).
Proof.
  split.
  - apply (proj1 id_fixed_at_creation sample_env (body_of chess) []
             chess_record [chess_record]).
    vm_compute. reflexivity.
  - apply (proj1 (proj2 id_fixed_at_creation)).
    exists [(sample_env, POST_game (body_of chess))]. vm_compute. reflexivity.
Defined.

(** C9, as stated, fails.  A creation whose body carries an [_id] stores the
    record under that id, not under the one the driver would generate; and
    once that record is deleted, a later creation can take the same id
    again. *)
Lemma id_from_body_counterexample :
  (exists g,
      post_game sample_env {| body_id := Some chosen_id; body_fields := chess |} []
      = ({| status := 200; json := Doc g |}, [g])
      /\ _id g = OID chosen_id
      /\ _id g <> ObjectId_generate (oid_raw sample_env))
  /\ (exists g,
         serve [(sample_env,
                 POST_game {| body_id := Some chosen_id; body_fields := chess |});
                (sample_env, DELETE_games_id chosen_id);
                (later_env,
                 POST_game {| body_id := Some chosen_id; body_fields := chess |})]
               []
         = [g]
         /\ _id g = OID chosen_id
         /\ createdAt g = now later_env).
Proof.
  split; eexists; (split; [vm_compute; reflexivity |]); split;
    try reflexivity.
  vm_compute. discriminate.
Qed.

(** C10.  For an id that does not cast to an ObjectId, the lookup throws a
    CastError, and GetById, UpdateById (with any payload) and DeleteById
    answer 500 with that error's message -- not the 404 of an absent
    record -- and leave the collection as it was. *)
Theorem malformed_id_server_error (id : string) (st : store) :
  castObjectId id = None ->
  Game_findById id st = Throw (CastError id "_id")
  /\ error_name (CastError id "_id") = "CastError"
  /\ get_games_id id st
     = ({| status := 500; json := Message (message (CastError id "_id")) |}, st)
  /\ (forall e p,
         put_games_id e id (body_of p) st
         = ({| status := 500; json := Message (message (CastError id "_id")) |}, st))
  /\ delete_games_id id st
     = ({| status := 500; json := Message (message (CastError id "_id")) |}, st)
  /\ fst (get_games_id id st) <> notFound id.
Proof.
  intros Hc.
  unfold get_games_id, put_games_id, delete_games_id, Game_findById,
    Game_findByIdAndUpdate, Game_findByIdAndDelete.
  rewrite Hc. repeat (split; [reflexivity |]).
  simpl. intros H. discriminate H.
Qed.

Lemma malformed_id_server_error_witness :
  Game_findById "abc" [chess_record] = Throw (CastError "abc" "_id")
  /\ error_name (CastError "abc" "_id") = "CastError"
  /\ get_games_id "abc" [chess_record]
     = ({| status := 500; json := Message (message (CastError "abc" "_id")) |},
        [chess_record])
  /\ (forall e p,
         put_games_id e "abc" (body_of p) [chess_record]
         = ({| status := 500; json := Message (message (CastError "abc" "_id")) |},
            [chess_record]))
  /\ delete_games_id "abc" [chess_record]
     = ({| status := 500; json := Message (message (CastError "abc" "_id")) |},
        [chess_record])
  /\ fst (get_games_id "abc" [chess_record]) <> notFound "abc".
Proof.
  apply (malformed_id_server_error "abc" [chess_record]). vm_compute. reflexivity.
Defined.

(** * Further properties of the handlers *)

(** ** More on the collection's primitives *)

Lemma In_updateOne (o : ObjectId) (f : game -> game) (st : store) (x : game) :
  In x (updateOne o f st) -> In x st \/ exists g, In g st /\ x = f g.
Proof.
  induction st as [|y r IH]; simpl; [tauto |].
  destruct (ObjectId_eqb (_id y) o); simpl.
  - intros [<- | H]; [right; exists y; tauto | tauto].
  - intros [<- | H]; [tauto |].
    destruct (IH H) as [? | (g & ? & ?)]; [tauto | right; exists g; tauto].
Qed.

Lemma In_deleteOne (o : ObjectId) (st : store) (x : game) :
  In x (deleteOne o st) -> In x st.
Proof.
  induction st as [|y r IH]; simpl; [tauto |].
  destruct (ObjectId_eqb (_id y) o); simpl; tauto.
Qed.

Lemma findOne_self (st : store) (g : game) :
  NoDup (map _id st) -> In g st -> findOne (_id g) st = Some g.
Proof.
  induction st as [|y r IH]; simpl; [tauto |].
  intros H Hin. inversion H as [|? ? Hn Hr]; subst.
  destruct Hin as [-> | Hin]; [now rewrite ObjectId_eqb_refl |].
  destruct (ObjectId_eqb (_id y) (_id g)) eqn:E; [|now apply IH].
  apply ObjectId_eqb_eq in E. exfalso. apply Hn. rewrite E. now apply in_map.
Qed.

Lemma deleteOne_split (o : ObjectId) (st : store) (g : game) :
  findOne o st = Some g ->
  exists l1 l2, st = (l1 ++ g :: l2)%list /\ deleteOne o st = (l1 ++ l2)%list
                /\ ~ In o (map _id l1).
Proof.
  induction st as [|y r IH]; simpl; [discriminate |].
  destruct (ObjectId_eqb (_id y) o) eqn:E.
  - intros [= <-]. exists [], r. simpl. tauto.
  - intros H. destruct (IH H) as (l1 & l2 & -> & -> & Hn).
    exists (y :: l1), l2. apply ObjectId_eqb_neq in E. simpl. tauto.
Qed.

Lemma updateOne_split (o : ObjectId) (f : game -> game) (st : store) (g : game) :
  findOne o st = Some g ->
  exists l1 l2, st = (l1 ++ g :: l2)%list
                /\ updateOne o f st = (l1 ++ f g :: l2)%list
                /\ ~ In o (map _id l1).
Proof.
  induction st as [|y r IH]; simpl; [discriminate |].
  destruct (ObjectId_eqb (_id y) o) eqn:E.
  - intros [= <-]. exists [], r. simpl. tauto.
  - intros H. destruct (IH H) as (l1 & l2 & -> & -> & Hn).
    exists (y :: l1), l2. apply ObjectId_eqb_neq in E. simpl. tauto.
Qed.

Lemma updateOne_twice (o : ObjectId) (f h : game -> game) (st : store) :
  (forall g, _id (h g) = _id g) ->
  updateOne o f (updateOne o h st) = updateOne o (fun g => f (h g)) st.
Proof.
  intros Hh. induction st as [|y r IH]; simpl; [reflexivity |].
  destruct (ObjectId_eqb (_id y) o) eqn:E; simpl.
  - now rewrite Hh, E.
  - now rewrite E, IH.
Qed.

Lemma updateOne_ext (o : ObjectId) (f f' : game -> game) (st : store) :
  (forall g, f g = f' g) -> updateOne o f st = updateOne o f' st.
Proof.
  intros Hf. induction st as [|y r IH]; simpl; [reflexivity |].
  destruct (ObjectId_eqb (_id y) o); [now rewrite Hf | now rewrite IH].
Qed.

Lemma deleteOne_length (o : ObjectId) (st : store) (g : game) :
  findOne o st = Some g -> S (length (deleteOne o st)) = length st.
Proof.
  intros H. destruct (deleteOne_split o st g H) as (l1 & l2 & -> & -> & _).
  rewrite !length_app. simpl. lia.
Qed.

Lemma updateOne_length (o : ObjectId) (f : game -> game) (st : store) :
  length (updateOne o f st) = length st.
Proof.
  induction st as [|y r IH]; simpl; [reflexivity |].
  destruct (ObjectId_eqb (_id y) o); simpl; [reflexivity | now rewrite IH].
Qed.

(** ** The outcomes of each handler *)

Lemma get_games_id_cases (id : string) (st : store) :
  (exists err, get_games_id id st = (serverError err, st))
  \/ get_games_id id st = (notFound id, st)
  \/ (exists o g, castObjectId id = Some o /\ findOne o st = Some g
                  /\ get_games_id id st = ({| status := 200; json := Doc g |}, st)).
Proof.
  unfold get_games_id, Game_findById.
  destruct (castObjectId id) as [o|]; [|left; eauto].
  destruct (findOne o st) as [g|] eqn:E; [|tauto].
  right; right. exists o, g. auto.
Qed.

Lemma put_games_id_cases (e : env) (id : string) (b : body) (st : store) :
  (exists err, put_games_id e id b st = (serverError err, st))
  \/ put_games_id e id b st = (notFound id, st)
  \/ (exists o g,
         castObjectId id = Some o /\ findOne o st = Some g
         /\ put_games_id e id b st
            = ({| status := 200; json := Doc (merge (body_fields b) (now e) g) |},
               updateOne o (merge (body_fields b) (now e)) st)).
Proof.
  unfold put_games_id, Game_findByIdAndUpdate.
  destruct (castObjectId id) as [o|]; [|left; eauto].
  destruct (castUpdate b) as [set_id|err]; [|left; eauto].
  destruct (findOne o st) as [g|] eqn:E; [|tauto].
  destruct (keepsId set_id g); [|left; eauto].
  right; right. exists o, g. auto.
Qed.

Lemma delete_games_id_cases (id : string) (st : store) :
  (exists err, delete_games_id id st = (serverError err, st))
  \/ delete_games_id id st = (notFound id, st)
  \/ (exists o g,
         castObjectId id = Some o /\ findOne o st = Some g
         /\ delete_games_id id st
            = ({| status := 200; json := Doc g |}, deleteOne o st)).
Proof.
  unfold delete_games_id, Game_findByIdAndDelete.
  destruct (castObjectId id) as [o|]; [|left; eauto].
  destruct (findOne o st) as [g|] eqn:E; [|tauto].
  right; right. exists o, g. auto.
Qed.

Lemma put_games_id_ok (e : env) (id : string) (b : body) (st st' : store)
      (g' : game) :
  put_games_id e id b st = ({| status := 200; json := Doc g' |}, st') ->
  exists o g,
    castObjectId id = Some o /\ findOne o st = Some g
    /\ g' = merge (body_fields b) (now e) g
    /\ st' = updateOne o (merge (body_fields b) (now e)) st.
Proof.
  destruct (put_games_id_cases e id b st)
    as [[err ->] | [-> | (o & g & Hc & Hf & ->)]].
  - unfold serverError. intros H. discriminate H.
  - unfold notFound. intros H. discriminate H.
  - intros [= <- <-]. exists o, g. auto.
Qed.

Lemma delete_games_id_ok (id : string) (st st' : store) (g : game) :
  delete_games_id id st = ({| status := 200; json := Doc g |}, st') ->
  exists o, castObjectId id = Some o /\ findOne o st = Some g
            /\ st' = deleteOne o st.
Proof.
  destruct (delete_games_id_cases id st)
    as [[err ->] | [-> | (o & g0 & Hc & Hf & ->)]].
  - unfold serverError. intros H. discriminate H.
  - unfold notFound. intros H. discriminate H.
  - intros [= <- <-]. exists o. auto.
Qed.

(** ** What every answer looks like *)

(** X1.  Every answer of the service has one of four shapes: 200 with one
    record (any route but the listing), 200 with the whole collection (the
    listing), 404 with the message "Cannot find the game with id " and the
    id as requested (only the three routes under /games/:id), or 500 with
    the message of the error that was caught.  So the creation and the
    listing never answer 404. *)
Theorem response_shape (e : env) (r : request) (st : store) :
  (exists g, fst (app e r st) = {| status := 200; json := Doc g |}
             /\ r <> GET_games)
  \/ (fst (app e r st) = {| status := 200; json := Docs st |} /\ r = GET_games)
  \/ (exists id, request_id r = Some id
                 /\ fst (app e r st)
                    = {| status := 404;
                         json := Message ("Cannot find the game with id " ++ id) |})
  \/ (exists err, fst (app e r st)
                  = {| status := 500; json := Message (message err) |}).
Proof.
  destruct r as [b| |id|id b|id]; simpl.
  - destruct (post_game_cases e b st) as [[err ->] | (-> & _)].
    + right; right; right. exists err. reflexivity.
    + left. eexists. split; [reflexivity | discriminate].
  - right; left. split; reflexivity.
  - destruct (get_games_id_cases id st) as [[err ->] | [-> | (o & g & _ & _ & ->)]].
    + right; right; right. exists err. reflexivity.
    + right; right; left. exists id. split; reflexivity.
    + left. eexists. split; [reflexivity | discriminate].
  - destruct (put_games_id_cases e id b st)
      as [[err ->] | [-> | (o & g & _ & _ & ->)]].
    + right; right; right. exists err. reflexivity.
    + right; right; left. exists id. split; reflexivity.
    + left. eexists. split; [reflexivity | discriminate].
  - destruct (delete_games_id_cases id st)
      as [[err ->] | [-> | (o & g & _ & _ & ->)]].
    + right; right; right. exists err. reflexivity.
    + right; right; left. exists id. split; reflexivity.
    + left. eexists. split; [reflexivity | discriminate].
Qed.

(** X2.  A request that is not answered 200 leaves the collection exactly as
    it was, whatever the route and whatever went wrong. *)
Theorem failure_keeps_store (e : env) (r : request) (st : store) :
  status (fst (app e r st)) <> 200%Z ->
  snd (app e r st) = st.
Proof.
  destruct r as [b| |id|id b|id]; simpl.
  - destruct (post_game_cases e b st) as [[err ->] | (-> & _)]; simpl;
      [reflexivity | congruence].
  - reflexivity.
  - intros _. apply get_games_id_store.
  - destruct (put_games_id_cases e id b st)
      as [[err ->] | [-> | (o & g & _ & _ & ->)]]; simpl;
      [reflexivity | reflexivity | congruence].
  - destruct (delete_games_id_cases id st)
      as [[err ->] | [-> | (o & g & _ & _ & ->)]]; simpl;
      [reflexivity | reflexivity | congruence].
Qed.

Lemma failure_keeps_store_witness :
  snd (app sample_env (POST_game (body_of nameless)) [chess_record])
  = [chess_record].
Proof.
  apply (failure_keeps_store sample_env (POST_game (body_of nameless))
           [chess_record]).
  vm_compute. discriminate.
Defined.

(** X3.  The two GET routes only read: after any sequence of GET requests,
    well-formed or not, found or not, the collection is the one it was. *)
Theorem reads_keep_store (rs : list (env * request)) (st : store) :
  (forall er, In er rs -> is_read (snd er) = true) ->
  serve rs st = st.
Proof.
  revert st; induction rs as [|[e r] rest IH]; intros st H; simpl; [reflexivity |].
  assert (Hr : is_read r = true) by (apply (H (e, r)); now left).
  assert (E : snd (app e r st) = st).
  { destruct r; try discriminate Hr; simpl;
      [reflexivity | apply get_games_id_store]. }
  rewrite E. apply IH. intros er Her. apply H. now right.
Qed.

Lemma reads_keep_store_witness :
  serve [(sample_env, GET_games); (later_env, GET_games_id "abc");
         (last_env, GET_games_id chosen_id)] [chess_record]
  = [chess_record].
Proof.
  apply (reads_keep_store
           [(sample_env, GET_games); (later_env, GET_games_id "abc");
            (last_env, GET_games_id chosen_id)] [chess_record]).
  simpl. intros er [<- | [<- | [<- | []]]]; reflexivity.
Defined.

(** X4.  The size of the collection after a request answered 200: one more
    record after a creation, one less after a deletion, and the same number
    after an update, a listing or a lookup. *)
Theorem store_size (e : env) (r : request) (st : store) :
  status (fst (app e r st)) = 200%Z ->
  match r with
  | POST_game _ => length (snd (app e r st)) = S (length st)
  | DELETE_games_id _ => S (length (snd (app e r st))) = length st
  | _ => length (snd (app e r st)) = length st
  end.
Proof.
  destruct r as [b| |id|id b|id]; simpl.
  - destruct (post_game_cases e b st) as [[err ->] | (-> & _)]; simpl;
      [discriminate |]. intros _. rewrite length_app. simpl. lia.
  - reflexivity.
  - intros _. now rewrite get_games_id_store.
  - intros _. rewrite <- (length_map _id), put_games_id_ids. apply length_map.
  - destruct (delete_games_id_cases id st)
      as [[err ->] | [-> | (o & g & _ & Hf & ->)]]; simpl;
      [discriminate | discriminate |].
    intros _. now apply (deleteOne_length o st g).
Qed.

Lemma store_size_witness :
  S (length (snd (app sample_env
                      (DELETE_games_id (toHexString (_id chess_record)))
                      [chess_record; chess_later])))
  = length [chess_record; chess_later].
Proof.
  apply (store_size sample_env
           (DELETE_games_id (toHexString (_id chess_record)))
           [chess_record; chess_later]).
  vm_compute. reflexivity.
Defined.

(** ** Ids as they are sent and as they are asked for *)

Lemma Game_new_id (e : env) (b : body) :
  castObjectId (toHexString (doc_id (Game_new e b))) = Some (doc_id (Game_new e b)).
Proof.
  unfold Game_new. destruct (body_id b) as [s|]; [|apply castObjectId_generate].
  destruct (castObjectId s) as [o|] eqn:E; simpl doc_id.
  - now apply (castObjectId_idem s).
  - apply castObjectId_generate.
Qed.

Lemma app_wellformed (e : env) (r : request) (st : store) :
  wellformed st -> wellformed (snd (app e r st)).
Proof.
  intros H. destruct r as [b| |id|id b|id]; simpl.
  - destruct (post_game_cases e b st) as [[err ->] | (-> & _)]; [exact H |].
    simpl. intros g Hg. apply in_app_iff in Hg as [Hg | [<- | []]]; [now apply H |].
    apply Game_new_id.
  - exact H.
  - now rewrite get_games_id_store.
  - destruct (put_games_id_cases e id b st)
      as [[err ->] | [-> | (o & g & _ & _ & ->)]]; [exact H | exact H |].
    simpl. intros x Hx. apply In_updateOne in Hx as [Hx | (y & Hy & ->)];
      [now apply H |]. rewrite merge_id. now apply H.
  - destruct (delete_games_id_cases id st)
      as [[err ->] | [-> | (o & g & _ & _ & ->)]]; [exact H | exact H |].
    simpl. intros x Hx. apply H. eapply In_deleteOne; eauto.
Qed.

Lemma reachable_wellformed (st : store) : reachable st -> wellformed st.
Proof.
  intros [rs ->].
  assert (G : forall s, wellformed s -> wellformed (serve rs s)).
  { induction rs as [|[e r] rest IH]; intros s Hs; simpl; [exact Hs |].
    apply IH, app_wellformed, Hs. }
  apply G. intros g [].
Qed.

(** X5.  Every record of the collection can be fetched through its own id:
    in any collection the service can reach, GetById of the [_id] of a
    stored record, written as the service sends it, answers 200 with that
    very record.  So whatever the listing shows can be looked up. *)
Theorem stored_record_found (st : store) (g : game) :
  reachable st ->
  In g st ->
  get_games_id (toHexString (_id g)) st = ({| status := 200; json := Doc g |}, st).
Proof.
  intros Hr Hg. apply (get_games_id_found _ (_id g)).
  - now apply (reachable_wellformed st Hr).
  - apply findOne_self; [now apply reachable_unique_ids | exact Hg].
Qed.

Lemma stored_record_found_witness :
  get_games_id (toHexString (_id chess_later)) [chess_record; chess_later]
  = ({| status := 200; json := Doc chess_later |}, [chess_record; chess_later]).
Proof.
  apply (stored_record_found [chess_record; chess_later] chess_later).
  - exists [(sample_env, POST_game (body_of chess));
            (later_env, POST_game (body_of chess))].
    vm_compute. reflexivity.
  - simpl. tauto.
Defined.

(** X6.  What an update sends back is what a lookup then finds: after an
    UpdateById answered 200, with any body, GetById of the same id answers
    200 with the record the update returned. *)
Theorem update_then_get (e : env) (id : string) (b : body) (st st' : store)
        (g' : game) :
  put_games_id e id b st = ({| status := 200; json := Doc g' |}, st') ->
  get_games_id id st' = ({| status := 200; json := Doc g' |}, st').
Proof.
  intros H. apply put_games_id_ok in H as (o & g & Hc & Hf & -> & ->).
  apply (get_games_id_found id o); [exact Hc |].
  now apply findOne_updateOne.
Qed.

Lemma update_then_get_witness :
  get_games_id (toHexString (_id chess_record))
               [merge only_author (now later_env) chess_record]
  = ({| status := 200;
        json := Doc (merge only_author (now later_env) chess_record) |},
     [merge only_author (now later_env) chess_record]).
Proof.
  apply (update_then_get later_env (toHexString (_id chess_record))
           (body_of only_author) [chess_record]).
  vm_compute. reflexivity.
Defined.

(** X7.  A deletion cannot be repeated: in a collection the service can
    reach, after a DeleteById answered 200, a second DeleteById of the same
    id and an UpdateById of it (with any payload) answer 404 and change
    nothing. *)
Theorem delete_twice (id : string) (st st' : store) (g : game) :
  reachable st ->
  delete_games_id id st = ({| status := 200; json := Doc g |}, st') ->
  delete_games_id id st' = (notFound id, st')
  /\ (forall e p, put_games_id e id (body_of p) st' = (notFound id, st')).
Proof.
  intros Hr H. apply delete_games_id_ok in H as (o & Hc & Hf & ->).
  assert (Hn : findOne o (deleteOne o st) = None)
    by (apply findOne_None, deleteOne_gone, reachable_unique_ids, Hr).
  split.
  - unfold delete_games_id, Game_findByIdAndDelete. now rewrite Hc, Hn.
  - intros e p. unfold put_games_id, Game_findByIdAndUpdate. simpl.
    now rewrite Hc, Hn.
Qed.

Lemma delete_twice_witness :
  delete_games_id (toHexString (_id chess_record)) [chess_later]
  = (notFound (toHexString (_id chess_record)), [chess_later])
  /\ (forall e p,
         put_games_id e (toHexString (_id chess_record)) (body_of p) [chess_later]
         = (notFound (toHexString (_id chess_record)), [chess_later])).
Proof.
  apply (delete_twice (toHexString (_id chess_record))
           [chess_record; chess_later] [chess_later] chess_record).
  - exists [(sample_env, POST_game (body_of chess));
            (later_env, POST_game (body_of chess))].
    vm_compute. reflexivity.
  - vm_compute. reflexivity.
Defined.

(** ** Updates one after the other *)

Lemma merge_overlay (p2 p1 : payload) (t2 t1 : Z) (g : game) :
  merge p2 t2 (merge p1 t1 g) = merge (overlay p2 p1) t2 g.
Proof.
  destruct p2 as [[?|] [?|] [?|] [?|]], p1 as [[?|] [?|] [?|] [?|]]; reflexivity.
Qed.

(** X8.  Two updates of the same id, one after the other, do what one update
    does: the second update applied after the first gives the same answer
    and the same collection as a single update, at the time of the second,
    with the payload that takes each field from the second payload when it
    provides it and from the first otherwise.  This holds whether the id
    resolves, is absent, or is malformed. *)
Theorem updates_compose (e1 e2 : env) (id : string) (p1 p2 : payload) (st : store) :
  put_games_id e2 id (body_of p2) (snd (put_games_id e1 id (body_of p1) st))
  = put_games_id e2 id (body_of (overlay p2 p1)) st.
Proof.
  unfold put_games_id, Game_findByIdAndUpdate. simpl.
  destruct (castObjectId id) as [o|]; simpl; [|reflexivity].
  destruct (findOne o st) as [g|] eqn:Hf; simpl.
  - rewrite (findOne_updateOne o (merge p1 (now e1)) st g (merge_id p1 (now e1)) Hf).
    rewrite merge_overlay.
    rewrite (updateOne_twice o _ _ st (merge_id p1 (now e1))).
    rewrite (updateOne_ext o _ (merge (overlay p2 p1) (now e2)) st); [reflexivity |].
    intros x. apply merge_overlay.
  - now rewrite Hf.
Qed.

(** ** Time stamps *)

Lemma findOne_app_some (o : ObjectId) (st l : store) (g : game) :
  findOne o st = Some g -> findOne o (st ++ l)%list = Some g.
Proof.
  induction st as [|y r IH]; simpl; [discriminate |].
  destruct (ObjectId_eqb (_id y) o); [trivial | exact IH].
Qed.

(** X10.  No request changes the [createdAt] of a record: in a collection
    the service can reach, if an id resolves to a record before a request
    and still resolves after it, the two records have the same
    [createdAt]. *)
Theorem createdAt_fixed (e : env) (r : request) (st : store) (o : ObjectId)
        (g g' : game) :
  reachable st ->
  findOne o st = Some g ->
  findOne o (snd (app e r st)) = Some g' ->
  createdAt g' = createdAt g.
Proof.
  intros Hr Hg. apply reachable_unique_ids in Hr.
  assert (Same : findOne o st = Some g' -> createdAt g' = createdAt g)
    by (rewrite Hg; intros [= ->]; reflexivity).
  destruct r as [b| |id|id b|id]; simpl.
  - destruct (post_game_cases e b st) as [[err ->] | (-> & _)]; [exact Same |].
    simpl. rewrite (findOne_app_some o st _ g Hg). intros [= ->]. reflexivity.
  - exact Same.
  - now rewrite get_games_id_store.
  - destruct (put_games_id_cases e id b st)
      as [[err ->] | [-> | (o' & x & _ & Hx & ->)]]; [exact Same | exact Same |].
    simpl. destruct (ObjectId_eqb o o') eqn:E.
    + apply ObjectId_eqb_eq in E. subst o'.
      rewrite (findOne_updateOne o _ st x (merge_id _ _) Hx).
      intros [= <-]. rewrite Hg in Hx. injection Hx as ->. reflexivity.
    + apply ObjectId_eqb_neq in E.
      rewrite (findOne_updateOne_other o' o _ st (merge_id _ _) E). exact Same.
  - destruct (delete_games_id_cases id st)
      as [[err ->] | [-> | (o' & x & _ & Hx & ->)]]; [exact Same | exact Same |].
    simpl. destruct (ObjectId_eqb o o') eqn:E.
    + apply ObjectId_eqb_eq in E. subst o'.
      assert (Hn : findOne o (deleteOne o st) = None)
        by (apply findOne_None, deleteOne_gone, Hr).
      rewrite Hn. discriminate.
    + apply ObjectId_eqb_neq in E.
      rewrite (findOne_deleteOne_other o' o st E). exact Same.
Qed.

Lemma createdAt_fixed_witness :
  createdAt (merge only_author (now later_env) chess_record)
  = createdAt chess_record.
Proof.
  apply (createdAt_fixed later_env
           (PUT_games_id (toHexString (_id chess_record)) (body_of only_author))
           [chess_record] (_id chess_record)).
  - exists [(sample_env, POST_game (body_of chess))]. vm_compute. reflexivity.
  - vm_compute. reflexivity.
  - vm_compute. reflexivity.
Defined.

(** ** Required fields along the requests *)

Lemma checkRequired_text (v : option string) :
  checkRequired v = true -> checkRequired (Some (text v)) = true.
Proof. destruct v; simpl; [trivial | discriminate]. Qed.

Lemma stamped_filled (e : env) (b : body) :
  validate (Game_new e b) = [] -> filled (stamped e (Game_new e b)).
Proof.
  intros Hv f.
  assert (Hc : checkRequired (payload_get (body_fields b) f) = true).
  { destruct (checkRequired (payload_get (body_fields b) f)) eqn:E; [reflexivity |].
    apply checkRequired_false, (validate_required e b f) in E.
    rewrite Hv in E. destruct E. }
  rewrite <- (Game_new_fields e b) in Hc.
  apply checkRequired_text in Hc. destruct f; exact Hc.
Qed.

Lemma app_filled (e : env) (r : request) (st : store) :
  is_update r = false ->
  (forall g, In g st -> filled g) ->
  forall g, In g (snd (app e r st)) -> filled g.
Proof.
  intros Hr H. destruct r as [b| |id|id b|id]; simpl.
  - destruct (post_game_cases e b st) as [[err ->] | (-> & Hv & _)]; [exact H |].
    simpl. intros g Hg. apply in_app_iff in Hg as [Hg | [<- | []]]; [now apply H |].
    now apply stamped_filled.
  - exact H.
  - now rewrite get_games_id_store.
  - discriminate Hr.
  - destruct (delete_games_id_cases id st)
      as [[err ->] | [-> | (o & g & _ & _ & ->)]]; [exact H | exact H |].
    simpl. intros x Hx. apply H. eapply In_deleteOne; eauto.
Qed.

(** X11.  Records enter the collection with their required fields filled,
    and only an update can change that: after any sequence of creations,
    listings, lookups and deletions from the empty collection -- no
    UpdateById among them -- each of the four required fields of every
    stored record is non-empty (it passes the validator of a creation). *)
Theorem required_fields_without_update (rs : list (env * request)) :
  (forall er, In er rs -> is_update (snd er) = false) ->
  forall g, In g (serve rs []) -> filled g.
Proof.
  assert (G : forall st, (forall g, In g st -> filled g) ->
                         (forall er, In er rs -> is_update (snd er) = false) ->
                         forall g, In g (serve rs st) -> filled g).
  { induction rs as [|[e r] rest IH]; intros st Hst Hrs; simpl; [exact Hst |].
    apply IH; [|intros er Her; apply Hrs; now right].
    apply app_filled; [apply (Hrs (e, r)); now left | exact Hst]. }
  intros Hrs. apply G; [intros g [] | exact Hrs].
Qed.

Lemma required_fields_without_update_witness :
  checkRequired (Some (game_get chess_later Author)) = true.
Proof.
  apply (required_fields_without_update
           [(sample_env, POST_game (body_of chess));
            (later_env, POST_game (body_of chess));
            (last_env, DELETE_games_id (toHexString (_id chess_record)))]).
  - intros er [<- | [<- | [<- | []]]]; reflexivity.
  - vm_compute. left. reflexivity.
Defined.

(** ** An id that is taken; records in their place *)



(** X13.  A deletion answered 200 takes exactly one record out of the
    collection and leaves the others in their order: the listing afterwards
    is the listing before without the record that was sent back, which was
    the first one with that id. *)
Theorem delete_keeps_order (id : string) (st st' : store) (g : game) :
  delete_games_id id st = ({| status := 200; json := Doc g |}, st') ->
  exists l1 l2,
    st = (l1 ++ g :: l2)%list
    /\ st' = (l1 ++ l2)%list
    /\ ~ In (_id g) (map _id l1)
    /\ get_games st' = ({| status := 200; json := Docs (l1 ++ l2)%list |}, st').
Proof.
  intros H. apply delete_games_id_ok in H as (o & Hc & Hf & ->).
  destruct (deleteOne_split o st g Hf) as (l1 & l2 & Hst & Hd & Hn).
  exists l1, l2. rewrite (findOne_id o st g Hf), Hd. auto.
Qed.

Lemma delete_keeps_order_witness :
  exists l1 l2,
    [chess_record; chess_later; chess_last] = (l1 ++ chess_later :: l2)%list
    /\ [chess_record; chess_last] = (l1 ++ l2)%list
    /\ ~ In (_id chess_later) (map _id l1)
    /\ get_games [chess_record; chess_last]
       = ({| status := 200; json := Docs (l1 ++ l2)%list |},
          [chess_record; chess_last]).
Proof.
  apply (delete_keeps_order (toHexString (_id chess_later))
           [chess_record; chess_later; chess_last]).
  vm_compute. reflexivity.
Defined.

(** X14.  An update answered 200 changes one record where it stands: the
    collection afterwards is the collection before with the record of that
    id replaced, at the same place, by the record that was sent back; every
    other record is the same and in the same position. *)
Theorem update_in_place (e : env) (id : string) (b : body) (st st' : store)
        (g' : game) :
  put_games_id e id b st = ({| status := 200; json := Doc g' |}, st') ->
  exists l1 g l2,
    st = (l1 ++ g :: l2)%list
    /\ st' = (l1 ++ g' :: l2)%list
    /\ _id g' = _id g
    /\ ~ In (_id g) (map _id l1).
Proof.
  intros H. apply put_games_id_ok in H as (o & g & Hc & Hf & -> & ->).
  destruct (updateOne_split o (merge (body_fields b) (now e)) st g Hf)
    as (l1 & l2 & Hst & Hu & Hn).
  exists l1, g, l2.
  split; [exact Hst |]. split; [exact Hu |]. split; [reflexivity |].
  now rewrite (findOne_id o st g Hf).
Qed.

Lemma update_in_place_witness :
  exists l1 g l2,
    [chess_record; chess_later] = (l1 ++ g :: l2)%list
    /\ [chess_record; merge blank_name (now last_env) chess_later]
       = (l1 ++ merge blank_name (now last_env) chess_later :: l2)%list
    /\ _id (merge blank_name (now last_env) chess_later) = _id g
    /\ ~ In (_id g) (map _id l1).
Proof.
  apply (update_in_place last_env (toHexString (_id chess_later))
           (body_of blank_name) [chess_record; chess_later]).
  vm_compute. reflexivity.
Defined.
